(** * The comma-delimited chunk aggregator of docs/docs/how_to/functions.ipynb

    The notebook defines two generator functions, [split_into_list] and
    [asplit_into_list], that re-chunk a stream of text fragments into
    single-element lists, one per comma-separated item.  This file embeds
    both, together with the part of Python's [str] they rely on, and proves
    the properties stated about them. *)

From Equations Require Import Equations.
From Stdlib Require Import String Ascii.
From Stdlib Require Import List Arith Lia NArith Bool.
Import ListNotations.

(** ** Python strings *)

Module PyStr.

(** A [str] is a sequence of Unicode code points. *)
Definition char := N.
Definition pystr := list char.

(** String literals of the notebook, read code point by code point. *)
Definition py (s : string) : pystr :=
  List.map N_of_ascii (list_ascii_of_string s).

Definition comma : char := 44%N.

(** [str.isspace] on one code point: CPython's [_PyUnicode_IsWhitespace]. *)
Definition isspace (c : char) : bool :=
  ((9 <=? c) && (c <=? 13) || (28 <=? c) && (c <=? 31) || (c =? 32)
   || (c =? 0x85) || (c =? 0xA0) || (c =? 0x1680)
   || (0x2000 <=? c) && (c <=? 0x200A)
   || (c =? 0x2028) || (c =? 0x2029) || (c =? 0x202F)
   || (c =? 0x205F) || (c =? 0x3000))%N.

(** [c in s] for a one-character needle. *)
Fixpoint contains (c : char) (s : pystr) : bool :=
  match s with
  | [] => false
  | x :: r => if (x =? c)%N then true else contains c r
  end.

(** [s.index(c)]: the lowest index holding [c]; [None] stands for the
    [ValueError] Python raises when there is none. *)
Fixpoint index (c : char) (s : pystr) : option nat :=
  match s with
  | [] => None
  | x :: r => if (x =? c)%N then Some 0
              else match index c r with
                   | Some i => Some (S i)
                   | None => None
                   end
  end.

(** [s[:i]] and [s[i:]] for a non-negative [i] (slices clamp). *)
Definition slice_to (i : nat) (s : pystr) : pystr := firstn i s.
Definition slice_from (i : nat) (s : pystr) : pystr := skipn i s.

(** [s.lstrip()], [s.rstrip()] and [s.strip()] without argument. *)
Fixpoint lstrip (s : pystr) : pystr :=
  match s with
  | [] => []
  | c :: r => if isspace c then lstrip r else s
  end.

Definition rstrip (s : pystr) : pystr := rev (lstrip (rev s)).

Definition strip (s : pystr) : pystr := rstrip (lstrip s).

(** [sep.join(items)]. *)
Fixpoint join (sep : pystr) (items : list pystr) : pystr :=
  match items with
  | [] => []
  | [x] => x
  | x :: rest => x ++ sep ++ join sep rest
  end.

(** [s.count(c)] for a one-character needle. *)
Fixpoint count (c : char) (s : pystr) : nat :=
  match s with
  | [] => 0
  | x :: r => (if (x =? c)%N then 1 else 0) + count c r
  end.

End PyStr.
Import PyStr.

(** ** Exceptions and iterators *)

(** An exception, identified by its class name. *)
Inductive exn : Type := Exn (class : string).

Definition ValueError : exn := Exn "ValueError".

(** What one call of [next(input)] does: hand over a fragment, signal the
    end of the input, or raise. *)
Inductive next_result : Type :=
| Item (chunk : pystr)
| StopIteration
| Raise (e : exn).

(** An [Iterator[str]] that yields finitely many fragments and then either
    ends ([closing = None]) or raises ([closing = Some e]). *)
Record iterator : Type := Iterator {
  pending : list pystr;
  closing : option exn
}.

Definition next (input : iterator) : next_result * iterator :=
  match pending input with
  | chunk :: rest => (Item chunk, Iterator rest (closing input))
  | [] => match closing input with
          | None => (StopIteration, input)
          | Some e => (Raise e, Iterator [] None)
          end
  end.

(** [iter(fragments)]: an iterator over a finite sequence. *)
Definition iter (fragments : list pystr) : iterator := Iterator fragments None.

(** ** [split_into_list], run to completion

    The generator drained by its consumer: the list of values it yields, in
    order, and how the run ended. *)

(** How a block of the body ends: it falls through with the current value
    of [buffer], or an exception leaves it. *)
Inductive flow : Type :=
| Normal (buffer : pystr)
| Raising (e : exn).

(** How the whole run ends. *)
Inductive completion : Type :=
| Returned
| Raised (e : exn).

Definition inspect {A} (a : A) : {b | a = b} := exist _ a eq_refl.

(** The [while "," in buffer:] loop. *)
Equations while_loop (buffer : pystr) : list (list pystr) * flow
  by wf (length buffer) lt :=
while_loop buffer with inspect (contains comma buffer) := {
  | exist _ false _ => ([], Normal buffer)
  | exist _ true _ with inspect (index comma buffer) := {
      | exist _ None _ => ([], Raising ValueError)
      | exist _ (Some comma_index) Hidx =>
          let rest := while_loop (slice_from (comma_index + 1) buffer) in
          ([strip (slice_to comma_index buffer)] :: fst rest, snd rest) } }.
Next Obligation.
  unfold slice_from. rewrite length_skipn.
  enough (comma_index < length buffer) by lia.
  clear - Hidx. revert comma_index Hidx.
  induction buffer as [|x r IH]; simpl; intros i H; [discriminate|].
  destruct (x =? comma)%N.
  - injection H as <-. lia.
  - destruct (index comma r) as [j|]; [|discriminate].
    injection H as <-. specialize (IH j eq_refl). lia.
Qed.

(** The [for chunk in input:] loop, from the current [buffer]. *)
Fixpoint for_loop (buffer : pystr) (fragments : list pystr)
    (closing : option exn) : list (list pystr) * flow :=
  match fragments with
  | [] => match closing with
          | None => ([], Normal buffer)
          | Some e => ([], Raising e)
          end
  | chunk :: rest =>
      let buffer := buffer ++ chunk in
      match while_loop buffer with
      | (out, Normal buffer) =>
          let (out', fl) := for_loop buffer rest closing in (out ++ out', fl)
      | (out, Raising e) => (out, Raising e)
      end
  end.

Definition split_into_list (input : iterator)
    : list (list pystr) * completion :=
  let buffer := [] in
  match for_loop buffer (pending input) (closing input) with
  | (out, Normal buffer) => (out ++ [[strip buffer]], Returned)
  | (out, Raising e) => (out, Raised e)
  end.

(** The values yielded over a run. *)
Definition emitted (run : list (list pystr) * completion) : list (list pystr) :=
  fst run.

(** ** The generators, one step at a time

    A generator is a suspended frame: the control point it stands at and the
    value of its variables.  The consumer's view of a run is the sequence of
    events the frame produces while it advances. *)

Inductive event : Type :=
| Fetch (r : next_result)     (* the [for] statement asked the input for its next fragment *)
| Yield (v : list pystr)      (* a value handed to the consumer *)
| Suspend.                    (* control went back to the scheduler at an [await] *)

Section Exec.
Variable state : Type.
Variable step : state -> option (option event * state).

(** At most [fuel] steps from [s]: the events seen and the state reached. *)
Fixpoint exec (fuel : nat) (s : state) : list event * state :=
  match fuel with
  | 0 => ([], s)
  | S fuel' =>
      match step s with
      | None => ([], s)
      | Some (ev, s') =>
          let (t, s'') := exec fuel' s' in
          (match ev with Some e => e :: t | None => t end, s'')
      end
  end.

(** Some number of steps leads from [s] to [s'], with trace [t]. *)
Definition reaches (s : state) (t : list event) (s' : state) : Prop :=
  exists fuel, exec fuel s = (t, s').

(** The run from [s] ends in [s'], where no step is left, with trace [t]. *)
Definition runs_to (s : state) (t : list event) (s' : state) : Prop :=
  reaches s t s' /\ step s' = None.
End Exec.
Arguments exec {state} step fuel s.
Arguments reaches {state} step s t s'.
Arguments runs_to {state} step s t s'.

Fixpoint yields (t : list event) : list (list pystr) :=
  match t with
  | [] => []
  | Yield v :: t' => v :: yields t'
  | _ :: t' => yields t'
  end.

Fixpoint fetches (t : list event) : list next_result :=
  match t with
  | [] => []
  | Fetch r :: t' => r :: fetches t'
  | _ :: t' => fetches t'
  end.

(** The control points of both generator bodies. *)
Inductive frame : Type :=
| Entry                                          (* created, body not entered *)
| ForNext (buffer : pystr)                       (* at [for chunk in input:] *)
| WhileTest (buffer : pystr)                     (* at [while "," in buffer:] *)
| AtYield (buffer : pystr) (comma_index : nat)   (* at [yield [buffer[:comma_index].strip()]] *)
| AtLastYield (buffer : pystr)                   (* at [yield [buffer.strip()]] *)
| Finished (c : completion).

Module Sync.

Definition state : Type := frame * iterator.

(** One step of the body of [split_into_list]. *)
Definition step (s : state) : option (option event * state) :=
  let (fr, input) := s in
  match fr with
  | Entry => Some (None, (ForNext [], input))
  | ForNext buffer =>
      let (r, input') := next input in
      match r with
      | Item chunk => Some (Some (Fetch r), (WhileTest (buffer ++ chunk), input'))
      | StopIteration => Some (Some (Fetch r), (AtLastYield buffer, input'))
      | Raise e => Some (Some (Fetch r), (Finished (Raised e), input'))
      end
  | WhileTest buffer =>
      if contains comma buffer then
        match index comma buffer with
        | Some comma_index => Some (None, (AtYield buffer comma_index, input))
        | None => Some (None, (Finished (Raised ValueError), input))
        end
      else Some (None, (ForNext buffer, input))
  | AtYield buffer comma_index =>
      Some (Some (Yield [strip (slice_to comma_index buffer)]),
            (WhileTest (slice_from (comma_index + 1) buffer), input))
  | AtLastYield buffer =>
      Some (Some (Yield [strip buffer]), (Finished Returned, input))
  | Finished _ => None
  end.

Definition run (fuel : nat) (input : iterator) : list event * state :=
  exec step fuel (Entry, input).

End Sync.

(** ** [asplit_into_list] *)

(** An [AsyncIterator[str]]: each fragment, and the end of the input, is
    awaited; [delay] counts how often the awaiting generator is suspended
    before the answer is there. *)
Record aiterator : Type := AIterator {
  apending : list (nat * pystr);
  aclosing_delay : nat;
  aclosing : option exn
}.

(** One resumption of [await input.__anext__()]: still pending, or the
    answer ([StopIteration] stands for [StopAsyncIteration]). *)
Definition anext (input : aiterator) : option next_result * aiterator :=
  match apending input with
  | (S delay, chunk) :: rest =>
      (None, AIterator ((delay, chunk) :: rest) (aclosing_delay input) (aclosing input))
  | (0, chunk) :: rest =>
      (Some (Item chunk), AIterator rest (aclosing_delay input) (aclosing input))
  | [] =>
      match aclosing_delay input with
      | S delay => (None, AIterator [] delay (aclosing input))
      | 0 => match aclosing input with
             | None => (Some StopIteration, input)
             | Some e => (Some (Raise e), AIterator [] 0 None)
             end
      end
  end.

(** The synchronous iterator over the same fragments. *)
Definition sync_of (input : aiterator) : iterator :=
  Iterator (List.map snd (apending input)) (aclosing input).

Module Async.

Definition state : Type := frame * aiterator.

(** One step of the body of [asplit_into_list]. *)
Definition step (s : state) : option (option event * state) :=
  let (fr, input) := s in
  match fr with
  | Entry => Some (None, (ForNext [], input))
  | ForNext buffer =>
      let (r, input') := anext input in
      match r with
      | None => Some (Some Suspend, (ForNext buffer, input'))
      | Some (Item chunk) =>
          Some (Some (Fetch (Item chunk)), (WhileTest (buffer ++ chunk), input'))
      | Some StopIteration =>
          Some (Some (Fetch StopIteration), (AtLastYield buffer, input'))
      | Some (Raise e) =>
          Some (Some (Fetch (Raise e)), (Finished (Raised e), input'))
      end
  | WhileTest buffer =>
      if contains comma buffer then
        match index comma buffer with
        | Some comma_index => Some (None, (AtYield buffer comma_index, input))
        | None => Some (None, (Finished (Raised ValueError), input))
        end
      else Some (None, (ForNext buffer, input))
  | AtYield buffer comma_index =>
      Some (Some (Yield [strip (slice_to comma_index buffer)]),
            (WhileTest (slice_from (comma_index + 1) buffer), input))
  | AtLastYield buffer =>
      Some (Some (Yield [strip buffer]), (Finished Returned, input))
  | Finished _ => None
  end.

Definition run (fuel : nat) (input : aiterator) : list event * state :=
  exec step fuel (Entry, input).

End Async.

(** The body of [asplit_into_list] run to completion: the same statements
    over an asynchronous input; an awaited fragment is there when the body
    goes on, however long it was awaited. *)
Fixpoint afor_loop (buffer : pystr) (fragments : list (nat * pystr))
    (closing : option exn) : list (list pystr) * flow :=
  match fragments with
  | [] => match closing with
          | None => ([], Normal buffer)
          | Some e => ([], Raising e)
          end
  | (_, chunk) :: rest =>
      let buffer := buffer ++ chunk in
      match while_loop buffer with
      | (out, Normal buffer) =>
          let (out', fl) := afor_loop buffer rest closing in (out ++ out', fl)
      | (out, Raising e) => (out, Raising e)
      end
  end.

Definition asplit_into_list (input : aiterator)
    : list (list pystr) * completion :=
  let buffer := [] in
  match afor_loop buffer (apending input) (aclosing input) with
  | (out, Normal buffer) => (out ++ [[strip buffer]], Returned)
  | (out, Raising e) => (out, Raised e)
  end.

(** Where the body stands once [next(input)] has answered. *)
Definition after_fetch (buffer : pystr) (r : next_result) : frame :=
  match r with
  | Item chunk => WhileTest (buffer ++ chunk)
  | StopIteration => AtLastYield buffer
  | Raise e => Finished (Raised e)
  end.

(** What the input answers once its fragments are used up. *)
Definition closing_result (closing : option exn) : next_result :=
  match closing with
  | None => StopIteration
  | Some e => Raise e
  end.

(** The items of a run: every yielded list, flattened in order. *)
Definition items (out : list (list pystr)) : list pystr := List.concat out.

(** The whole input text: the fragments concatenated. *)
Definition whole (fragments : list pystr) : pystr := List.concat fragments.



(** No leading and no trailing whitespace. *)
Definition trimmed (s : pystr) : Prop :=
  (forall c r, s = c :: r -> isspace c = false) /\
  (forall c r, s = r ++ [c] -> isspace c = false).

(** ** Reference points for the generators *)

(** [s.split(sep)] for a one-character separator. *)
Fixpoint split (sep : char) (s : pystr) : list pystr :=
  match s with
  | [] => [[]]
  | c :: r =>
      if (c =? sep)%N then [] :: split sep r
      else match split sep r with
           | x :: xs => (c :: x) :: xs
           | [] => [[c]]
           end
  end.

(** A trace without the points where the generator was suspended. *)
Fixpoint erase_suspend (t : list event) : list event :=
  match t with
  | [] => []
  | Suspend :: t' => erase_suspend t'
  | e :: t' => e :: erase_suspend t'
  end.

Fixpoint count_suspend (t : list event) : nat :=
  match t with
  | [] => 0
  | Suspend :: t' => S (count_suspend t')
  | _ :: t' => count_suspend t'
  end.

(** How often an asynchronous input keeps its consumer waiting in all. *)
Definition delays (input : aiterator) : nat :=
  list_sum (List.map fst (apending input)) + aclosing_delay input.

(** ** The coerced function *)

(** The message a chat model answers with, as far as the notebook reads it. *)
Record AIMessage : Type := { content : pystr }.

(** [lambda x: x.content[:5]], the function coerced into a runnable. *)
Definition coerced_function (x : AIMessage) : pystr := slice_to 5 (content x).

(** ** [parse_or_fix]

    [json.loads] and the fixing chain are not the notebook's own: the first is
    a function of the text that gives an object or raises, the second an
    invocation that gives a text or raises and may change the world it runs
    in (the model behind it, the callbacks of [config]).  What
    [parse_or_fix] returns is an object with no mark of where it comes from:
    what [json.loads] made of a text, or the [str] ["Failed to parse"];
    [json_str] is a [str] as such an object, which [json.loads] may return
    as well. *)

Section ParseOrFix.
Variable json : Type.
Variable json_str : pystr -> json.
Variable loads : pystr -> json + exn.
Variables config world : Type.
Variable invoke : config -> pystr -> exn -> world -> (pystr + exn) * world.

(** The [for _ in range(n):] loop and the [return] after it. *)
Fixpoint attempts (n : nat) (text : pystr) (cfg : config) (w : world)
    : (json + exn) * world :=
  match n with
  | 0 => (inl (json_str (py "Failed to parse")), w)
  | S n' =>
      match loads text with
      | inl v => (inl v, w)
      | inr e =>
          match invoke cfg text e w with
          | (inl text', w') => attempts n' text' cfg w'
          | (inr e', w') => (inr e', w')
          end
      end
  end.

Definition parse_or_fix (text : pystr) (cfg : config) (w : world)
    : (json + exn) * world :=
  attempts 3 text cfg w.

(** The same chain, keeping a record of every invocation: the configuration
    and the text it was given, oldest first. *)
Definition invoke_recording (cfg : config) (text : pystr) (e : exn)
    (cw : list (config * pystr) * world)
    : (pystr + exn) * (list (config * pystr) * world) :=
  let (r, w') := invoke cfg text e (snd cw) in
  (r, (fst cw ++ [(cfg, text)], w')).

End ParseOrFix.
Arguments attempts {json} json_str loads {config world} invoke n text cfg w.
Arguments parse_or_fix {json} json_str loads {config world} invoke text cfg w.
Arguments invoke_recording {config world} invoke cfg text e cw.

(** [==] on two [str]. *)
Fixpoint str_eqb (s t : pystr) : bool :=
  match s, t with
  | [], [] => true
  | c :: s', d :: t' => (c =? d)%N && str_eqb s' t'
  | _, _ => false
  end.

(** Stand-ins to run [parse_or_fix] with: objects that are a JSON object or a
    [str], a parser that accepts the texts [{}] and ["Failed to parse"] (in
    its quotes) only, and a chain whose third answer is the first that
    parses. *)
Inductive sample_json : Type :=
| JObject (fields : list (pystr * pystr))
| JString (s : pystr).

Definition sample_loads (text : pystr) : sample_json + exn :=
  if str_eqb text (py "{}") then inl (JObject [])
  else if str_eqb text (34%N :: py "Failed to parse" ++ [34%N])
       then inl (JString (py "Failed to parse"))
       else inr (Exn "JSONDecodeError").

Definition sample_invoke (cfg : unit) (text : pystr) (e : exn) (w : nat)
    : (pystr + exn) * nat :=
  (inl (if Nat.eqb w 2 then py "{}" else py "{"), S w).

(** * Properties *)

(** ** Facts about the string operations *)

Section StringFacts.

Lemma contains_false_iff c s : contains c s = false <-> ~ In c s.
Proof.
  induction s as [|x r IH]; simpl.
  - split; [intros _ []|reflexivity].
  - destruct (N.eqb_spec x c) as [->|Hne].
    + split; [discriminate|]. intros H; exfalso; apply H; now left.
    + rewrite IH. split.
      * intros H [E|E]; [congruence|auto].
      * intros H E; apply H; now right.
Qed.


Lemma contains_app c s t :
  contains c (s ++ t) = contains c s || contains c t.
Proof.
  induction s as [|x r IH]; simpl; [reflexivity|].
  destruct (x =? c)%N; [reflexivity|assumption].
Qed.

Lemma count_app c s t : count c (s ++ t) = count c s + count c t.
Proof. induction s as [|x r IH]; simpl; [reflexivity|]. rewrite IH. lia. Qed.

Lemma count_none c s : contains c s = false -> count c s = 0.
Proof.
  induction s as [|x r IH]; simpl; [reflexivity|].
  destruct (x =? c)%N; [discriminate|]. intros H. now rewrite IH.
Qed.

Lemma index_first c seg rest :
  contains c seg = false -> index c (seg ++ c :: rest) = Some (length seg).
Proof.
  induction seg as [|x r IH]; simpl.
  - now rewrite N.eqb_refl.
  - destruct (x =? c)%N; [discriminate|]. intros H. now rewrite IH.
Qed.

(** A text that holds a comma is cut at its first one. *)
Lemma first_comma c s :
  contains c s = true ->
  exists seg rest, s = seg ++ c :: rest /\ contains c seg = false.
Proof.
  induction s as [|x r IH]; simpl; [discriminate|].
  destruct (N.eqb_spec x c) as [->|Hne].
  - intros _. exists [], r. split; reflexivity.
  - intros H. destruct (IH H) as (seg & rest & -> & Hseg).
    exists (x :: seg), rest. split; [reflexivity|].
    simpl. destruct (N.eqb_spec x c); [contradiction|assumption].
Qed.

(** Induction along the commas of a text, left to right. *)
Lemma comma_ind (c : char) (P : pystr -> Prop) :
  (forall s, contains c s = false -> P s) ->
  (forall seg rest, contains c seg = false -> P rest -> P (seg ++ c :: rest)) ->
  forall s, P s.
Proof.
  intros Hnone Hcut s.
  remember (length s) as n eqn:Hn. revert s Hn.
  induction n as [n IH] using lt_wf_ind. intros s ->.
  destruct (contains c s) eqn:E; [|now apply Hnone].
  destruct (first_comma _ _ E) as (seg & rest & -> & Hseg).
  apply Hcut; [assumption|].
  apply (IH (length rest)); [|reflexivity].
  rewrite length_app. simpl. lia.
Qed.

Lemma slice_to_first (seg rest : pystr) c :
  slice_to (length seg) (seg ++ c :: rest) = seg.
Proof.
  unfold slice_to. rewrite firstn_app, Nat.sub_diag, firstn_all. simpl.
  apply app_nil_r.
Qed.

Lemma slice_from_first (seg rest : pystr) c :
  slice_from (length seg + 1) (seg ++ c :: rest) = rest.
Proof.
  unfold slice_from. rewrite skipn_app.
  rewrite skipn_all2 by lia.
  replace (length seg + 1 - length seg) with 1 by lia. reflexivity.
Qed.

(** *** Stripping *)

Lemma lstrip_split s :
  exists ws, s = ws ++ lstrip s /\ forallb isspace ws = true.
Proof.
  induction s as [|x r (ws & E & Hws)]; simpl.
  - exists []. split; reflexivity.
  - destruct (isspace x) eqn:Hx.
    + exists (x :: ws). split; [simpl; congruence|]. simpl. now rewrite Hx.
    + exists []. split; reflexivity.
Qed.

Lemma lstrip_spaces ws s :
  forallb isspace ws = true -> lstrip (ws ++ s) = lstrip s.
Proof.
  induction ws as [|x r IH]; simpl; [reflexivity|].
  intros H. apply andb_true_iff in H as [Hx Hr]. rewrite Hx. auto.
Qed.

Lemma lstrip_head s c r : lstrip s = c :: r -> isspace c = false.
Proof.
  induction s as [|x t IH]; simpl; [discriminate|].
  destruct (isspace x) eqn:Hx; [assumption|]. intros E. congruence.
Qed.


Lemma lstrip_incl s c : In c (lstrip s) -> In c s.
Proof.
  destruct (lstrip_split s) as (ws & E & _). intros H.
  rewrite E. apply in_or_app. now right.
Qed.

Lemma rstrip_split s :
  exists ws, s = rstrip s ++ ws /\ forallb isspace ws = true.
Proof.
  unfold rstrip. destruct (lstrip_split (rev s)) as (ws & E & Hws).
  exists (rev ws). split.
  - rewrite <- rev_app_distr, <- E. symmetry. apply rev_involutive.
  - rewrite forallb_forall in *. intros x Hx. apply Hws.
    now apply in_rev.
Qed.


Lemma rstrip_last s c r : rstrip s = r ++ [c] -> isspace c = false.
Proof.
  unfold rstrip. intros E.
  apply (f_equal (@rev char)) in E. rewrite rev_involutive, rev_app_distr in E.
  simpl in E. eapply lstrip_head; eassumption.
Qed.


Lemma rstrip_incl s c : In c (rstrip s) -> In c s.
Proof.
  unfold rstrip. intros H. apply in_rev in H. apply lstrip_incl in H.
  now apply in_rev.
Qed.

(** [rstrip] keeps the first character of what it leaves. *)
Lemma rstrip_head s c r :
  rstrip s = c :: r -> exists r', s = c :: r'.
Proof.
  destruct (rstrip_split s) as (ws & E & _). intros H.
  rewrite H in E. exists (r ++ ws). exact E.
Qed.

Lemma strip_incl s c : In c (strip s) -> In c s.
Proof. unfold strip. intros H. now apply lstrip_incl, rstrip_incl. Qed.

Lemma strip_keeps_free c s : contains c s = false -> contains c (strip s) = false.
Proof.
  rewrite !contains_false_iff. intros H Hin. apply H. now apply strip_incl.
Qed.

Lemma strip_trimmed s : trimmed (strip s).
Proof.
  unfold strip. split.
  - intros c r E. destruct (rstrip_head _ _ _ E) as (r' & E').
    eapply lstrip_head; eassumption.
  - intros c r E. eapply rstrip_last; eassumption.
Qed.




End StringFacts.

(** ** The loops of the body *)

Section Loops.


(** Without a comma the [while] loop does not run. *)
Lemma while_loop_none buffer :
  contains comma buffer = false -> while_loop buffer = ([], Normal buffer).
Proof.
  intros H. funelim (while_loop buffer); try congruence.
Qed.

(** With a comma it yields the stripped text before the first one and goes
    on with the text after it. *)
Lemma while_loop_cut seg rest :
  contains comma seg = false ->
  while_loop (seg ++ comma :: rest)
  = ([strip seg] :: fst (while_loop rest), snd (while_loop rest)).
Proof.
  intros Hseg.
  pose proof (index_first comma seg rest Hseg) as Hi.
  remember (seg ++ comma :: rest) as buffer eqn:Hb.
  funelim (while_loop buffer).
  - assert (contains comma (seg ++ comma :: rest) = true) as Hin
      by (rewrite contains_app; simpl; apply orb_true_r).
    congruence.
  - replace comma_index with (length seg) by congruence.
    now rewrite slice_to_first, slice_from_first.
  - congruence.
Qed.

(** The [while] loop never raises, and leaves no comma in the buffer. *)
Lemma while_loop_normal buffer :
  exists out buffer',
    while_loop buffer = (out, Normal buffer') /\
    contains comma buffer' = false.
Proof.
  induction buffer as [s H | seg rest Hseg (out & b' & E & Hb')]
    using (comma_ind comma).
  - exists [], s. split; [now apply while_loop_none|assumption].
  - exists ([strip seg] :: out), b'.
    rewrite (while_loop_cut _ _ Hseg), E. split; [reflexivity|assumption].
Qed.

(** Draining [x ++ y] is draining [x], then what is left of it with [y]. *)
Lemma while_loop_app x y out buffer' :
  while_loop x = (out, Normal buffer') ->
  while_loop (x ++ y)
  = (out ++ fst (while_loop (buffer' ++ y)), snd (while_loop (buffer' ++ y))).
Proof.
  revert out buffer'.
  induction x as [s H | seg rest Hseg IH] using (comma_ind comma);
    intros out b' E.
  - rewrite (while_loop_none _ H) in E. injection E as <- <-.
    simpl. now destruct (while_loop (s ++ y)).
  - rewrite (while_loop_cut _ _ Hseg) in E.
    destruct (while_loop rest) as [o fl] eqn:Er. simpl in E.
    injection E as <- ->.
    rewrite <- app_assoc. simpl.
    rewrite (while_loop_cut _ _ Hseg), (IH _ _ eq_refl). reflexivity.
Qed.

(** The [for] loop over fragments that end normally is the [while] loop
    over the buffer followed by their concatenation. *)
Lemma for_loop_whole fragments buffer :
  contains comma buffer = false ->
  for_loop buffer fragments None = while_loop (buffer ++ whole fragments).
Proof.
  revert buffer. induction fragments as [|chunk rest IH]; intros b Hb; simpl.
  - rewrite app_nil_r. symmetry. now apply while_loop_none.
  - destruct (while_loop_normal (b ++ chunk)) as (out & b' & E & Hb').
    rewrite E, (IH _ Hb'). rewrite app_assoc.
    rewrite (while_loop_app _ _ _ _ E).
    now destruct (while_loop (b' ++ whole rest)).
Qed.

(** A failing input changes only how the loop ends. *)
Lemma for_loop_failing fragments buffer e :
  for_loop buffer fragments (Some e)
  = (fst (for_loop buffer fragments None), Raising e).
Proof.
  revert buffer. induction fragments as [|chunk rest IH]; intros b; simpl.
  - reflexivity.
  - destruct (while_loop_normal (b ++ chunk)) as (out & b' & E & Hb').
    rewrite E, IH. now destruct (for_loop b' rest None).
Qed.

Lemma for_loop_normal fragments buffer :
  contains comma buffer = false ->
  exists out buffer',
    for_loop buffer fragments None = (out, Normal buffer') /\
    contains comma buffer' = false.
Proof.
  intros Hb. rewrite (for_loop_whole _ _ Hb). apply while_loop_normal.
Qed.

(** The asynchronous loop is the synchronous one over the same fragments. *)
Lemma afor_loop_sync fragments buffer closing :
  afor_loop buffer fragments closing
  = for_loop buffer (List.map snd fragments) closing.
Proof.
  revert buffer. induction fragments as [|[d chunk] rest IH]; intros b; simpl.
  - reflexivity.
  - destruct (while_loop (b ++ chunk)) as [out [b'|e]]; [|reflexivity].
    now rewrite IH.
Qed.

(** What a whole run over [fragments] yields, from the whole text. *)
Lemma split_into_list_whole fragments :
  exists out buffer,
    while_loop (whole fragments) = (out, Normal buffer) /\
    contains comma buffer = false /\
    split_into_list (iter fragments) = (out ++ [[strip buffer]], Returned).
Proof.
  destruct (while_loop_normal (whole fragments)) as (out & b & E & Hb).
  exists out, b. repeat split; try assumption.
  unfold split_into_list, iter. simpl.
  rewrite (for_loop_whole fragments [] eq_refl). simpl. now rewrite E.
Qed.

End Loops.

(** ** Runs of a step function *)

Section ExecFacts.
Context {state : Type}.
Variable step : state -> option (option event * state).

Lemma exec_halted fuel s : step s = None -> exec step fuel s = ([], s).
Proof. intros H. destruct fuel; simpl; [reflexivity|]. now rewrite H. Qed.

Lemma exec_app n m s :
  exec step (n + m) s
  = let (t1, s1) := exec step n s in
    let (t2, s2) := exec step m s1 in (t1 ++ t2, s2).
Proof.
  revert s. induction n as [|n IH]; intros s; simpl.
  - now destruct (exec step m s).
  - destruct (step s) as [[ev s']|] eqn:E.
    + rewrite IH. destruct (exec step n s') as [t1 s1].
      destruct (exec step m s1) as [t2 s2]. now destruct ev.
    + now rewrite (exec_halted m _ E).
Qed.


Lemma reaches_trans s t1 s1 t2 s2 :
  reaches step s t1 s1 -> reaches step s1 t2 s2 ->
  reaches step s (t1 ++ t2) s2.
Proof.
  intros [n Hn] [m Hm]. exists (n + m). now rewrite exec_app, Hn, Hm.
Qed.

Lemma reaches_silent s s' :
  step s = Some (None, s') -> reaches step s [] s'.
Proof. intros H. exists 1. simpl. now rewrite H. Qed.

Lemma reaches_event s e s' :
  step s = Some (Some e, s') -> reaches step s [e] s'.
Proof. intros H. exists 1. simpl. now rewrite H. Qed.

(** A property kept by every step holds all along a run. *)
Lemma reaches_invariant (P : state -> Prop) :
  (forall s ev s', P s -> step s = Some (ev, s') -> P s') ->
  forall s t s', P s -> reaches step s t s' -> P s'.
Proof.
  intros Hstep s t s' Hs [n Hn]. revert s t Hs Hn.
  induction n as [|n IH]; intros s t Hs; simpl.
  - now intros [= _ <-].
  - destruct (step s) as [[ev s1]|] eqn:E; [|now intros [= _ <-]].
    destruct (exec step n s1) as [t1 s2] eqn:E1. intros [= _ <-].
    eapply IH; [|eassumption]. eapply Hstep; eassumption.
Qed.

(** Runs are deterministic: a run that ended has one trace and one end. *)
Lemma exec_more n m s t s' :
  exec step n s = (t, s') -> step s' = None -> n <= m ->
  exec step m s = (t, s').
Proof.
  intros Hn Hhalt Hle. replace m with (n + (m - n)) by lia.
  now rewrite exec_app, Hn, (exec_halted _ _ Hhalt), app_nil_r.
Qed.

Lemma runs_to_unique s t1 s1 t2 s2 :
  runs_to step s t1 s1 -> runs_to step s t2 s2 -> t1 = t2 /\ s1 = s2.
Proof.
  intros [[n Hn] H1] [[m Hm] H2].
  pose proof (exec_more n (n + m) _ _ _ Hn H1 ltac:(lia)) as E1.
  pose proof (exec_more m (n + m) _ _ _ Hm H2 ltac:(lia)) as E2.
  rewrite E1 in E2. now injection E2.
Qed.

Lemma yields_app t1 t2 : yields (t1 ++ t2) = yields t1 ++ yields t2.
Proof.
  induction t1 as [|[r|v|] t IH]; simpl; [reflexivity| | |]; now rewrite ?IH.
Qed.

Lemma fetches_app t1 t2 : fetches (t1 ++ t2) = fetches t1 ++ fetches t2.
Proof.
  induction t1 as [|[r|v|] t IH]; simpl; [reflexivity| | |]; now rewrite ?IH.
Qed.

Lemma yields_map_Yield out : yields (List.map Yield out) = out.
Proof. induction out as [|v r IH]; simpl; [reflexivity|]. now rewrite IH. Qed.

Lemma fetches_map_Yield out : fetches (List.map Yield out) = [].
Proof. induction out as [|v r IH]; simpl; [reflexivity|assumption]. Qed.

End ExecFacts.

(** ** The body, step by step, against the loops

    Both generators share the statements of their body and differ in how a
    fragment is obtained; the facts below hold for any step function that
    moves through the body the way they do. *)

Section Body.
Context {input : Type}.
Variable step : frame * input -> option (option event * (frame * input)).
Variable view : input -> iterator.

Hypothesis step_while : forall buffer i,
  step (WhileTest buffer, i)
  = if contains comma buffer then
      match index comma buffer with
      | Some comma_index => Some (None, (AtYield buffer comma_index, i))
      | None => Some (None, (Finished (Raised ValueError), i))
      end
    else Some (None, (ForNext buffer, i)).

Hypothesis step_yield : forall buffer comma_index i,
  step (AtYield buffer comma_index, i)
  = Some (Some (Yield [strip (slice_to comma_index buffer)]),
          (WhileTest (slice_from (comma_index + 1) buffer), i)).

Hypothesis step_for : forall buffer i,
  exists t i',
    reaches step (ForNext buffer, i)
      (t ++ [Fetch (fst (next (view i)))])
      (after_fetch buffer (fst (next (view i))), i') /\
    yields t = [] /\ fetches t = [] /\
    view i' = snd (next (view i)).

(** The [while] loop: every comma of the buffer is drained, left to right,
    with no fragment asked for in between. *)
Lemma body_while buffer i :
  exists out buffer',
    while_loop buffer = (out, Normal buffer') /\
    contains comma buffer' = false /\
    reaches step (WhileTest buffer, i) (List.map Yield out) (ForNext buffer', i).
Proof.
  induction buffer as [s H | seg rest Hseg (out & b' & E & Hb' & Hr)]
    using (comma_ind comma).
  - exists [], s. rewrite (while_loop_none _ H). repeat split; [assumption|].
    apply reaches_silent. now rewrite step_while, H.
  - exists ([strip seg] :: out), b'.
    rewrite (while_loop_cut _ _ Hseg), E. repeat split; [assumption|].
    change (List.map Yield ([strip seg] :: out))
      with ([] ++ [Yield [strip seg]] ++ List.map Yield out).
    eapply reaches_trans; [|eapply reaches_trans; [|exact Hr]].
    + apply reaches_silent. rewrite step_while.
      rewrite contains_app. simpl. rewrite orb_true_r.
      now rewrite (index_first _ _ _ Hseg).
    + apply reaches_event. rewrite step_yield.
      now rewrite slice_to_first, slice_from_first.
Qed.

(** The [for] loop: the fragments are fetched in order, the items of the
    loop are yielded in between, and the last fetch finds the input ended
    or failing. *)
Lemma body_for fragments closing : forall buffer i,
  view i = Iterator fragments closing ->
  exists t i' buffer',
    for_loop buffer fragments None = (yields t, Normal buffer') /\
    fetches t = List.map Item fragments /\
    reaches step (ForNext buffer, i)
      (t ++ [Fetch (closing_result closing)])
      (after_fetch buffer' (closing_result closing), i').
Proof.
  induction fragments as [|chunk rest IH]; intros b i Hv.
  - destruct (step_for b i) as (t & i' & Hr & Hy & Hf & _).
    rewrite Hv in Hr. unfold next in Hr. simpl in Hr.
    exists t, i', b. simpl. rewrite Hy, Hf. repeat split.
    now destruct closing.
  - destruct (step_for b i) as (t & i1 & Hr & Hy & Hf & Hv1).
    rewrite Hv in Hr, Hv1. unfold next in Hr, Hv1. simpl in Hr, Hv1.
    destruct (body_while (b ++ chunk) i1) as (out & b' & E & Hb' & Hw).
    destruct (IH b' i1 Hv1) as (t' & i' & b'' & El & Hf' & Hr').
    exists ((t ++ [Fetch (Item chunk)]) ++ List.map Yield out ++ t'), i', b''.
    simpl. rewrite E, El.
    rewrite !yields_app, !fetches_app, Hy, Hf, Hf'.
    rewrite yields_map_Yield, fetches_map_Yield. simpl.
    repeat split.
    replace (((t ++ [Fetch (Item chunk)]) ++ List.map Yield out ++ t')
             ++ [Fetch (closing_result closing)])
      with ((t ++ [Fetch (Item chunk)])
            ++ List.map Yield out ++ t' ++ [Fetch (closing_result closing)])
      by (now rewrite <- !app_assoc).
    eapply reaches_trans; [exact Hr|].
    eapply reaches_trans; [exact Hw|exact Hr'].
Qed.

End Body.

(** ** The two generators as instances of the body *)

Section Instances.

Lemma sync_step_for buffer (i : iterator) :
  exists t i',
    reaches Sync.step (ForNext buffer, i)
      (t ++ [Fetch (fst (next i))]) (after_fetch buffer (fst (next i)), i') /\
    yields t = [] /\ fetches t = [] /\ i' = snd (next i).
Proof.
  exists [], (snd (next i)). repeat split.
  apply reaches_event. simpl.
  destruct (next i) as [[chunk| |e] i']; reflexivity.
Qed.

Lemma sync_while buffer (i : iterator) :
  exists out buffer',
    while_loop buffer = (out, Normal buffer') /\
    contains comma buffer' = false /\
    reaches Sync.step (WhileTest buffer, i) (List.map Yield out)
      (ForNext buffer', i).
Proof. apply body_while; reflexivity. Qed.

Lemma sync_for buffer (i : iterator) :
  exists t i' buffer',
    for_loop buffer (pending i) None = (yields t, Normal buffer') /\
    fetches t = List.map Item (pending i) /\
    reaches Sync.step (ForNext buffer, i)
      (t ++ [Fetch (closing_result (closing i))])
      (after_fetch buffer' (closing_result (closing i)), i').
Proof.
  apply (body_for Sync.step (fun i => i)); try reflexivity.
  - apply sync_step_for.
  - now destruct i.
Qed.

(** Awaiting a fragment suspends the generator as often as the fragment is
    late, and then hands over what [next] hands over. *)
Lemma async_step_for buffer (i : aiterator) :
  exists t i',
    reaches Async.step (ForNext buffer, i)
      (t ++ [Fetch (fst (next (sync_of i)))])
      (after_fetch buffer (fst (next (sync_of i))), i') /\
    yields t = [] /\ fetches t = [] /\
    sync_of i' = snd (next (sync_of i)).
Proof.
  destruct i as [fragments d closing].
  destruct fragments as [|[delay chunk] rest].
  - induction d as [|d (t & i' & Hr & Hy & Hf & Hv)].
    + exists []. destruct closing as [e|].
      * exists (AIterator [] 0 None). repeat split.
        apply reaches_event. reflexivity.
      * exists (AIterator [] 0 None). repeat split.
        apply reaches_event. reflexivity.
    + exists (Suspend :: t), i'. repeat split; try assumption.
      change ((Suspend :: t) ++ [Fetch (fst (next (sync_of (AIterator [] (S d) closing))))])
        with ([Suspend] ++ t ++ [Fetch (fst (next (sync_of (AIterator [] d closing))))]).
      eapply reaches_trans; [|exact Hr].
      apply reaches_event. reflexivity.
  - induction delay as [|delay (t & i' & Hr & Hy & Hf & Hv)].
    + exists [], (AIterator rest d closing). repeat split.
      apply reaches_event. reflexivity.
    + exists (Suspend :: t), i'. repeat split; try assumption.
      change ((Suspend :: t)
              ++ [Fetch (fst (next (sync_of (AIterator ((S delay, chunk) :: rest) d closing))))])
        with ([Suspend] ++ t
              ++ [Fetch (fst (next (sync_of (AIterator ((delay, chunk) :: rest) d closing))))]).
      eapply reaches_trans; [|exact Hr].
      apply reaches_event. reflexivity.
Qed.

Lemma async_for buffer (i : aiterator) :
  exists t i' buffer',
    for_loop buffer (pending (sync_of i)) None = (yields t, Normal buffer') /\
    fetches t = List.map Item (pending (sync_of i)) /\
    reaches Async.step (ForNext buffer, i)
      (t ++ [Fetch (closing_result (closing (sync_of i)))])
      (after_fetch buffer' (closing_result (closing (sync_of i))), i').
Proof.
  apply (body_for Async.step sync_of); try reflexivity.
  apply async_step_for.
Qed.

(** After its [for] loop a body ends on its own: it yields the stripped
    buffer when the input ended, and nothing when the input failed. *)
Lemma sync_end buffer (i : iterator) :
  runs_to Sync.step (AtLastYield buffer, i) [Yield [strip buffer]]
    (Finished Returned, i).
Proof. split; [apply reaches_event|]; reflexivity. Qed.

Lemma async_end buffer (i : aiterator) :
  runs_to Async.step (AtLastYield buffer, i) [Yield [strip buffer]]
    (Finished Returned, i).
Proof. split; [apply reaches_event|]; reflexivity. Qed.

(** A whole run of [split_into_list], step by step: its trace and its end
    are those of the loops. *)
Lemma sync_run_loops (input : iterator) :
  exists t i' buffer,
    for_loop [] (pending input) None = (yields t, Normal buffer) /\
    fetches t = List.map Item (pending input) /\
    runs_to Sync.step (Entry, input)
      (t ++ Fetch (closing_result (closing input))
         :: match closing input with
            | None => [Yield [strip buffer]]
            | Some _ => []
            end)
      (Finished (snd (split_into_list input)), i') /\
    emitted (split_into_list input)
    = yields t ++ match closing input with
                  | None => [[strip buffer]]
                  | Some _ => []
                  end.
Proof.
  destruct (sync_for [] input) as (t & i' & b & El & Hf & Hr).
  exists t, i', b. split; [assumption|]. split; [assumption|].
  unfold split_into_list, emitted.
  destruct (closing input) as [e|] eqn:Ec.
  - rewrite for_loop_failing, El. simpl. rewrite app_nil_r. repeat split.
    change (t ++ [Fetch (Raise e)]) with ([] ++ t ++ [Fetch (Raise e)]).
    eapply reaches_trans; [|exact Hr].
    apply reaches_silent. reflexivity.
  - rewrite El. simpl. repeat split.
    change (t ++ [Fetch StopIteration; Yield [strip b]])
      with ([] ++ t ++ [Fetch StopIteration] ++ [Yield [strip b]]).
    eapply reaches_trans; [apply reaches_silent; reflexivity|].
    rewrite app_assoc.
    eapply reaches_trans; [exact Hr|]. apply sync_end.
Qed.

Lemma async_run_loops (input : aiterator) :
  exists t i' buffer,
    for_loop [] (pending (sync_of input)) None = (yields t, Normal buffer) /\
    fetches t = List.map Item (pending (sync_of input)) /\
    runs_to Async.step (Entry, input)
      (t ++ Fetch (closing_result (aclosing input))
         :: match aclosing input with
            | None => [Yield [strip buffer]]
            | Some _ => []
            end)
      (Finished (snd (asplit_into_list input)), i') /\
    emitted (asplit_into_list input)
    = yields t ++ match aclosing input with
                  | None => [[strip buffer]]
                  | Some _ => []
                  end.
Proof.
  destruct (async_for [] input) as (t & i' & b & El & Hf & Hr).
  exists t, i', b. split; [assumption|]. split; [assumption|].
  unfold asplit_into_list, emitted. rewrite afor_loop_sync.
  simpl in *.
  destruct (aclosing input) as [e|] eqn:Ec.
  - rewrite for_loop_failing, El. simpl. rewrite app_nil_r. repeat split.
    change (t ++ [Fetch (Raise e)]) with ([] ++ t ++ [Fetch (Raise e)]).
    eapply reaches_trans; [|exact Hr].
    apply reaches_silent. reflexivity.
  - rewrite El. simpl. repeat split.
    change (t ++ [Fetch StopIteration; Yield [strip b]])
      with ([] ++ t ++ [Fetch StopIteration] ++ [Yield [strip b]]).
    eapply reaches_trans; [apply reaches_silent; reflexivity|].
    rewrite app_assoc.
    eapply reaches_trans; [exact Hr|]. apply async_end.
Qed.

End Instances.

(** ** What a run yields, from the whole text *)

Section Segments.

Lemma join_snoc sep xs x :
  join sep (xs ++ [x]) = List.concat (List.map (fun s => s ++ sep) xs) ++ x.
Proof.
  induction xs as [|y r IH]; simpl; [reflexivity|].
  destruct (r ++ [x]) as [|p l] eqn:E; [now destruct r|].
  rewrite IH. now rewrite <- !app_assoc.
Qed.

(** The [while] loop cuts the buffer at its commas: it yields the stripped
    comma-free segments in order and keeps the comma-free rest. *)
Lemma while_loop_segments buffer :
  exists segs buffer',
    while_loop buffer = (List.map (fun s => [strip s]) segs, Normal buffer') /\
    buffer = join [comma] (segs ++ [buffer']) /\
    Forall (fun s => contains comma s = false) (segs ++ [buffer']) /\
    length segs = count comma buffer.
Proof.
  induction buffer as [s H | seg rest Hseg (segs & b' & E & Hj & Hall & Hn)]
    using (comma_ind comma).
  - exists [], s. rewrite (while_loop_none _ H), (count_none _ _ H).
    repeat split. now constructor.
  - exists (seg :: segs), b'. rewrite (while_loop_cut _ _ Hseg), E.
    repeat split.
    + rewrite join_snoc in *. simpl. rewrite <- !app_assoc. simpl.
      now rewrite <- Hj.
    + now constructor.
    + rewrite count_app, (count_none _ _ Hseg). simpl. now rewrite Hn.
Qed.

(** Contract of a whole run: the input text is cut at its commas, and each
    segment is yielded stripped, in a list of its own. *)
Lemma split_into_list_segments fragments :
  exists segs,
    whole fragments = join [comma] segs /\
    Forall (fun s => contains comma s = false) segs /\
    length segs = count comma (whole fragments) + 1 /\
    split_into_list (iter fragments)
    = (List.map (fun s => [strip s]) segs, Returned).
Proof.
  destruct (while_loop_segments (whole fragments))
    as (segs & b & E & Hj & Hall & Hn).
  destruct (split_into_list_whole fragments) as (out & b1 & E1 & _ & Hs).
  rewrite E in E1. injection E1 as <- <-.
  exists (segs ++ [b]). repeat split; try assumption.
  - rewrite length_app. simpl. lia.
  - rewrite Hs, map_app. reflexivity.
Qed.

(** Every value yielded over any run is a one-item list whose item is
    stripped and holds no comma. *)
Lemma while_loop_yields buffer :
  Forall (fun v => exists x, v = [x] /\ trimmed x /\ contains comma x = false)
    (fst (while_loop buffer)).
Proof.
  destruct (while_loop_segments buffer) as (segs & b & E & _ & Hall & _).
  rewrite E. simpl. clear E. apply Forall_app in Hall as [Hall _].
  induction Hall as [|s r Hs _ IH]; simpl; [constructor|].
  constructor; [|assumption].
  exists (strip s). split; [reflexivity|].
  split; [apply strip_trimmed|now apply strip_keeps_free].
Qed.

Lemma for_loop_yields fragments closing : forall buffer,
  Forall (fun v => exists x, v = [x] /\ trimmed x /\ contains comma x = false)
    (fst (for_loop buffer fragments closing)).
Proof.
  induction fragments as [|chunk rest IH]; intros b; simpl.
  - destruct closing; constructor.
  - pose proof (while_loop_yields (b ++ chunk)) as Hw.
    destruct (while_loop (b ++ chunk)) as [out [b'|e]]; [|exact Hw].
    specialize (IH b'). destruct (for_loop b' rest closing) as [out' fl].
    simpl in *. apply Forall_app. now split.
Qed.

Lemma for_loop_rest fragments : forall buffer buffer' out,
  contains comma buffer = false ->
  for_loop buffer fragments None = (out, Normal buffer') ->
  contains comma buffer' = false.
Proof.
  intros b b' out Hb E.
  destruct (for_loop_normal fragments b Hb) as (o & b1 & E1 & H1).
  congruence.
Qed.

Lemma split_into_list_yields input :
  Forall (fun v => exists x, v = [x] /\ trimmed x /\ contains comma x = false)
    (emitted (split_into_list input)).
Proof.
  unfold split_into_list, emitted.
  pose proof (for_loop_yields (pending input) (closing input) []) as H.
  destruct (for_loop [] (pending input) (closing input)) as [out [b|e]] eqn:E;
    simpl in *; [|assumption].
  apply Forall_app. split; [assumption|]. constructor; [|constructor].
  exists (strip b). split; [reflexivity|].
  split; [apply strip_trimmed|]. apply strip_keeps_free.
  destruct (closing input) as [e|] eqn:Ec.
  - rewrite for_loop_failing in E. discriminate.
  - now apply (for_loop_rest (pending input) [] b out).
Qed.

End Segments.

(** ** Runs from the entry of the body *)

Section Runs.

Lemma sync_entry (input : iterator) :
  exists t i' buffer,
    for_loop [] (pending input) None = (yields t, Normal buffer) /\
    contains comma buffer = false /\
    fetches t = List.map Item (pending input) /\
    reaches Sync.step (Entry, input)
      (t ++ [Fetch (closing_result (closing input))])
      (after_fetch buffer (closing_result (closing input)), i').
Proof.
  destruct (sync_for [] input) as (t & i' & b & El & Hf & Hr).
  exists t, i', b. repeat split; try assumption.
  - now apply (for_loop_rest (pending input) [] b (yields t)).
  - change (t ++ [Fetch (closing_result (closing input))])
      with ([] ++ t ++ [Fetch (closing_result (closing input))]).
    eapply reaches_trans; [|exact Hr].
    apply reaches_silent. reflexivity.
Qed.

(** The notebook's stream, awaited for various lengths of time. *)
Example asplit_into_list_abcd :
  Async.run 21 (AIterator [(2, py "a,"); (0, py "b,c"); (1, py ",d")] 3 None)
  = ([Suspend; Suspend; Fetch (Item (py "a,")); Yield [py "a"];
      Fetch (Item (py "b,c")); Yield [py "b"];
      Suspend; Fetch (Item (py ",d")); Yield [py "c"];
      Suspend; Suspend; Suspend; Fetch StopIteration; Yield [py "d"]],
     (Finished Returned, AIterator [] 0 None)).
Proof. reflexivity. Qed.

End Runs.

(** * The stated properties *)

(** C2. Fragment-boundary independence: two ways of cutting the same text
    into fragments make [split_into_list] yield the same sequence. *)
Theorem split_into_list_fragment_independent (f1 f2 : list pystr) :
  whole f1 = whole f2 ->
  split_into_list (iter f1) = split_into_list (iter f2).
Proof.
  intros H.
  destruct (split_into_list_whole f1) as (o1 & b1 & E1 & _ & ->).
  destruct (split_into_list_whole f2) as (o2 & b2 & E2 & _ & ->).
  rewrite H in E1. rewrite E1 in E2. now injection E2 as -> ->.
Qed.

Lemma split_into_list_fragment_independent_witness :
  whole [py "a,"; py "b,c"; py ",d"] = whole [py "a,b"; py ",c,d"] /\
  split_into_list (iter [py "a,"; py "b,c"; py ",d"])
  = split_into_list (iter [py "a,b"; py ",c,d"]).
Proof.
  split; [reflexivity|].
  apply (split_into_list_fragment_independent
           [py "a,"; py "b,c"; py ",d"] [py "a,b"; py ",c,d"]).
  reflexivity.
Defined.

(** C3. Over the same fragments, however long each is awaited,
    [asplit_into_list] and [split_into_list] give the same result, and their
    step-by-step runs both end, the same way, having yielded the same
    sequence and fetched the same fragments. *)
Theorem asplit_into_list_same_output (input : aiterator) :
  asplit_into_list input = split_into_list (sync_of input) /\
  exists ta ia ts i c,
    runs_to Async.step (Entry, input) ta (Finished c, ia) /\
    runs_to Sync.step (Entry, sync_of input) ts (Finished c, i) /\
    yields ta = yields ts /\
    fetches ta = fetches ts /\
    yields ta = emitted (asplit_into_list input).
Proof.
  assert (asplit_into_list input = split_into_list (sync_of input)) as Heq.
  { unfold asplit_into_list, split_into_list. now rewrite afor_loop_sync. }
  split; [exact Heq|].
  destruct (async_run_loops input) as (t1 & i1 & b1 & E1 & F1 & R1 & Y1).
  destruct (sync_run_loops (sync_of input)) as (t2 & i2 & b2 & E2 & F2 & R2 & Y2).
  rewrite E1 in E2. injection E2 as Hy <-.
  change (closing (sync_of input)) with (aclosing input) in *.
  rewrite <- Heq in R2.
  eexists _, i1, _, i2, _. split; [exact R1|]. split; [exact R2|].
  rewrite !yields_app, !fetches_app, Hy, F1, F2, Y1, Hy. simpl.
  destruct (aclosing input); simpl; repeat split; reflexivity.
Qed.

(** C4. Once the input has ended, [split_into_list] yields exactly one more
    value, the stripped buffer left by the loop (which holds no comma and may
    be empty), and returns.  The single fragment ["x"] gives the single
    value [["x"]], yielded after the end of the input was seen. *)
Theorem split_into_list_final_flush :
  (forall fragments : list pystr,
     exists t i' buffer,
       fetches t = List.map Item fragments /\
       reaches Sync.step (Entry, iter fragments)
         (t ++ [Fetch StopIteration]) (AtLastYield buffer, i') /\
       contains comma buffer = false /\
       runs_to Sync.step (Entry, iter fragments)
         (t ++ [Fetch StopIteration; Yield [strip buffer]])
         (Finished Returned, i') /\
       split_into_list (iter fragments)
       = (yields t ++ [[strip buffer]], Returned)) /\
  Sync.run 5 (iter [py "x"])
  = ([Fetch (Item (py "x")); Fetch StopIteration; Yield [py "x"]],
     (Finished Returned, iter [])) /\
  split_into_list (iter [py "x"]) = ([[py "x"]], Returned).
Proof.
  split; [|split; reflexivity].
  intros fragments.
  destruct (sync_entry (iter fragments)) as (t & i' & b & El & Hb & Hf & Hr).
  simpl in *. exists t, i', b. repeat split; try assumption.
  - change (t ++ [Fetch StopIteration; Yield [strip b]])
      with (t ++ [Fetch StopIteration] ++ [Yield [strip b]]).
    rewrite app_assoc.
    eapply reaches_trans; [exact Hr|]. apply sync_end.
  - unfold split_into_list. simpl. now rewrite El.
Qed.

(** C5. Whenever [split_into_list] is about to ask for the next fragment,
    its buffer holds no comma; and from the test of the [while] loop every
    comma of the buffer is drained, left to right, before that: the stripped
    segments are yielded in order, nothing is fetched, and the comma-free
    rest is what the [for] loop goes on with. *)
Theorem split_into_list_drains_before_fetch :
  (forall input t buffer i',
     reaches Sync.step (Entry, input) t (ForNext buffer, i') ->
     contains comma buffer = false) /\
  (forall buffer (i : iterator),
     exists segs buffer',
       buffer = join [comma] (segs ++ [buffer']) /\
       Forall (fun s => contains comma s = false) (segs ++ [buffer']) /\
       length segs = count comma buffer /\
       reaches Sync.step (WhileTest buffer, i)
         (List.map (fun s => Yield [strip s]) segs) (ForNext buffer', i)).
Proof.
  split.
  - intros input t buffer i' Hr.
    pose (P := fun s : Sync.state =>
                 match fst s with
                 | ForNext b => contains comma b = false
                 | _ => True
                 end).
    apply (reaches_invariant Sync.step P) with (s' := (ForNext buffer, i')) in Hr;
      [exact Hr| |exact I].
    intros [fr i] ev [fr' i1] _ Hstep. unfold P. simpl.
    destruct fr as [|b|b|b k|b|c]; simpl in Hstep.
    + now injection Hstep as _ <- _.
    + destruct (next i) as [[chunk| |e] i2]; now injection Hstep as _ <- _.
    + destruct (contains comma b) eqn:Hc.
      * destruct (index comma b); now injection Hstep as _ <- _.
      * injection Hstep as _ <- _. exact Hc.
    + now injection Hstep as _ <- _.
    + now injection Hstep as _ <- _.
    + discriminate.
  - intros buffer i.
    destruct (while_loop_segments buffer) as (segs & b & E & Hj & Hall & Hn).
    destruct (sync_while buffer i) as (out & b' & E' & _ & Hr).
    rewrite E in E'. injection E' as <- <-.
    exists segs, b. repeat split; try assumption.
    now rewrite map_map in Hr.
Qed.

Lemma split_into_list_drains_before_fetch_witness :
  reaches Sync.step (Entry, iter [py "a,b"; py "c"])
    [Fetch (Item (py "a,b")); Yield [py "a"]] (ForNext (py "b"), iter [py "c"]) /\
  contains comma (py "b") = false.
Proof.
  assert (reaches Sync.step (Entry, iter [py "a,b"; py "c"])
            [Fetch (Item (py "a,b")); Yield [py "a"]]
            (ForNext (py "b"), iter [py "c"])) as H
    by (exists 5; reflexivity).
  split; [exact H|].
  exact (proj1 split_into_list_drains_before_fetch _ _ _ _ H).
Defined.

(** C6. When the input raises after some fragments, [split_into_list] ends
    by raising the same exception; what it yielded until then is what those
    fragments alone make it yield, without the final stripped buffer. *)
Theorem split_into_list_propagates_failure (fragments : list pystr) (e : exn) :
  exists t i' buffer,
    runs_to Sync.step (Entry, Iterator fragments (Some e))
      (t ++ [Fetch (Raise e)]) (Finished (Raised e), i') /\
    fetches t = List.map Item fragments /\
    split_into_list (Iterator fragments (Some e)) = (yields t, Raised e) /\
    split_into_list (iter fragments) = (yields t ++ [[strip buffer]], Returned).
Proof.
  destruct (sync_entry (Iterator fragments (Some e)))
    as (t & i' & b & El & Hb & Hf & Hr).
  simpl in *. exists t, i', b. repeat split; try assumption.
  - unfold split_into_list. simpl. now rewrite for_loop_failing, El.
  - unfold split_into_list. simpl. now rewrite El.
Qed.

(** C7. The fragments ["a,"], ["b,c"], [",d"] make [split_into_list] yield
    [["a"]], [["b"]], [["c"]], [["d"]], in this order. *)
Theorem split_into_list_abcd :
  split_into_list (iter [py "a,"; py "b,c"; py ",d"])
  = ([[py "a"]; [py "b"]; [py "c"]; [py "d"]], Returned) /\
  Sync.run 15 (iter [py "a,"; py "b,c"; py ",d"])
  = ([Fetch (Item (py "a,")); Yield [py "a"];
      Fetch (Item (py "b,c")); Yield [py "b"];
      Fetch (Item (py ",d")); Yield [py "c"];
      Fetch StopIteration; Yield [py "d"]],
     (Finished Returned, iter [])).
Proof. split; reflexivity. Qed.

(** C8. The fragments [""], [","], [""] make [split_into_list] yield two
    values: [[""]] when the comma is drained and [[""]] at the end of the
    input. *)
Theorem split_into_list_empty_items :
  split_into_list (iter [py ""; py ","; py ""]) = ([[py ""]; [py ""]], Returned) /\
  Sync.run 11 (iter [py ""; py ","; py ""])
  = ([Fetch (Item (py "")); Fetch (Item (py ",")); Yield [py ""];
      Fetch (Item (py "")); Fetch StopIteration; Yield [py ""]],
     (Finished Returned, iter [])).
Proof. split; reflexivity. Qed.

(** C9. Every item [split_into_list] yields has no whitespace at its start
    or at its end: it is a comma-delimited segment of the input, stripped.
    The single fragment [" lion , tiger "] gives [["lion"]], the segment
    [" lion "] stripped, and then [["tiger"]], the segment [" tiger "]
    stripped. *)
Theorem split_into_list_strips_items :
  (forall input : iterator,
     Forall (fun v => exists x, v = [x] /\ trimmed x)
       (emitted (split_into_list input))) /\
  (forall fragments : list pystr,
     exists segs,
       whole fragments = join [comma] segs /\
       emitted (split_into_list (iter fragments))
       = List.map (fun s => [strip s]) segs) /\
  split_into_list (iter [py " lion , tiger "])
  = ([[strip (py " lion ")]; [strip (py " tiger ")]], Returned) /\
  strip (py " lion ") = py "lion" /\
  strip (py " tiger ") = py "tiger".
Proof.
  split; [|split; [|repeat split; reflexivity]].
  - intros input. eapply Forall_impl; [|apply split_into_list_yields].
    intros v (x & -> & Hx & _). now exists x.
  - intros fragments.
    destruct (split_into_list_segments fragments) as (segs & Hj & _ & _ & E).
    exists segs. now rewrite E.
Qed.

(** C10. Over fragments that end normally, [split_into_list] and
    [asplit_into_list] yield one list more than the text holds commas; each
    list has exactly one item, and no item holds a comma. *)
Theorem split_into_list_counts_commas :
  (forall fragments : list pystr,
     let out := emitted (split_into_list (iter fragments)) in
     length out = count comma (whole fragments) + 1 /\
     Forall (fun v => exists x, v = [x] /\ contains comma x = false) out) /\
  (forall (fragments : list (nat * pystr)) (delay : nat),
     let out := emitted (asplit_into_list (AIterator fragments delay None)) in
     length out = count comma (whole (List.map snd fragments)) + 1 /\
     Forall (fun v => exists x, v = [x] /\ contains comma x = false) out).
Proof.
  assert (forall fragments : list pystr,
     let out := emitted (split_into_list (iter fragments)) in
     length out = count comma (whole fragments) + 1 /\
     Forall (fun v => exists x, v = [x] /\ contains comma x = false) out) as H.
  { intros fragments out. subst out. split.
    - destruct (split_into_list_segments fragments) as (segs & _ & _ & Hn & ->).
      unfold emitted. simpl. now rewrite length_map.
    - eapply Forall_impl; [|apply split_into_list_yields].
      intros v (x & -> & _ & Hx). now exists x. }
  split; [exact H|].
  intros fragments delay.
  replace (asplit_into_list (AIterator fragments delay None))
    with (split_into_list (iter (List.map snd fragments))); [apply H|].
  unfold asplit_into_list, split_into_list. simpl.
  now rewrite afor_loop_sync.
Qed.

(** ** Joining the items again *)

Section Rejoin.

Lemma spaces_no_comma ws :
  forallb isspace ws = true -> contains comma ws = false.
Proof.
  induction ws as [|c r IH]; simpl; [reflexivity|].
  intros H. apply andb_true_iff in H as [Hc Hr].
  destruct (N.eqb_spec c comma) as [->|_]; [discriminate Hc|auto].
Qed.

Lemma lstrip_all_spaces ws : forallb isspace ws = true -> lstrip ws = [].
Proof.
  intros H. rewrite <- (app_nil_r ws). now rewrite lstrip_spaces.
Qed.




Lemma join_cons sep y xs x :
  join sep (y :: xs ++ [x]) = y ++ sep ++ join sep (xs ++ [x]).
Proof. simpl. destruct (xs ++ [x]) eqn:E; [now destruct xs|reflexivity]. Qed.



End Rejoin.

Section Padding.



End Padding.




(** * Further properties of the notebook's functions *)

(** ** The generators against [str.split] *)

Section SplitFacts.

Lemma split_none c s : contains c s = false -> split c s = [s].
Proof.
  induction s as [|x r IH]; simpl; [reflexivity|].
  destruct (x =? c)%N; [discriminate|]. intros H. now rewrite (IH H).
Qed.

Lemma split_cut c seg rest :
  contains c seg = false -> split c (seg ++ c :: rest) = seg :: split c rest.
Proof.
  induction seg as [|x r IH]; simpl.
  - now rewrite N.eqb_refl.
  - destruct (x =? c)%N; [discriminate|]. intros H. now rewrite (IH H).
Qed.

Lemma split_join segs x :
  Forall (fun s => contains comma s = false) (segs ++ [x]) ->
  split comma (join [comma] (segs ++ [x])) = segs ++ [x].
Proof.
  induction segs as [|y r IH]; simpl app; intros Hall.
  - apply Forall_inv in Hall. simpl. now apply split_none.
  - apply Forall_cons_iff in Hall as [Hy Hall].
    rewrite join_cons. simpl app. rewrite (split_cut _ _ _ Hy).
    now rewrite (IH Hall).
Qed.

End SplitFacts.

(** X1. What [split_into_list] yields over fragments is what cutting the
    whole text with [split(",")] and stripping each piece gives, each piece
    in a list of its own; [asplit_into_list] yields the same over an input
    that ends normally. *)
Theorem split_into_list_is_split_strip :
  (forall fragments : list pystr,
     split_into_list (iter fragments)
     = (List.map (fun s => [strip s]) (split comma (whole fragments)), Returned)) /\
  (forall (fragments : list (nat * pystr)) (delay : nat),
     asplit_into_list (AIterator fragments delay None)
     = (List.map (fun s => [strip s])
          (split comma (whole (List.map snd fragments))), Returned)).
Proof.
  assert (forall fragments : list pystr,
     split_into_list (iter fragments)
     = (List.map (fun s => [strip s]) (split comma (whole fragments)), Returned))
    as H.
  { intros fragments.
    destruct (split_into_list_segments fragments) as (segs & Hj & Hall & Hn & ->).
    destruct (exists_last (l := segs)) as (r & x & ->).
    { destruct segs; [simpl in Hn; lia|discriminate]. }
    now rewrite Hj, (split_join _ _ Hall). }
  split; [exact H|].
  intros fragments delay. rewrite <- H.
  unfold asplit_into_list, split_into_list. simpl. now rewrite afor_loop_sync.
Qed.

(** X2. Neither generator fails on its own: a run ends by returning when the
    input ends, and by raising the input's exception when the input raises;
    [buffer.index(",")] never raises. *)
Theorem split_into_list_no_failure_of_its_own :
  (forall input : iterator,
     snd (split_into_list input)
     = match closing input with None => Returned | Some e => Raised e end) /\
  (forall input : aiterator,
     snd (asplit_into_list input)
     = match aclosing input with None => Returned | Some e => Raised e end) /\
  (forall buffer, exists out buffer', while_loop buffer = (out, Normal buffer')).
Proof.
  assert (forall input : iterator,
     snd (split_into_list input)
     = match closing input with None => Returned | Some e => Raised e end) as H.
  { intros input. unfold split_into_list.
    destruct (closing input) as [e|].
    - now rewrite for_loop_failing.
    - destruct (for_loop_normal (pending input) [] eq_refl) as (out & b & -> & _).
      reflexivity. }
  split; [exact H|]. split.
  - intros input. specialize (H (sync_of input)). simpl in H. rewrite <- H.
    unfold asplit_into_list, split_into_list. now rewrite afor_loop_sync.
  - intros buffer.
    destruct (while_loop_normal buffer) as (out & b & E & _). now exists out, b.
Qed.

(** X3. An input that holds only whitespace, and so an empty input, makes
    [split_into_list] yield exactly one value, the list of the empty
    string. *)
Theorem split_into_list_blank_input (fragments : list pystr) :
  forallb isspace (whole fragments) = true ->
  split_into_list (iter fragments) = ([[py ""]], Returned).
Proof.
  intros H.
  destruct (split_into_list_whole fragments) as (out & b & E & _ & ->).
  rewrite (while_loop_none _ (spaces_no_comma _ H)) in E.
  injection E as <- <-. simpl.
  unfold strip. now rewrite (lstrip_all_spaces _ H).
Qed.

Lemma split_into_list_blank_input_witness :
  forallb isspace (whole [py " "; py ""; py "  "]) = true /\
  split_into_list (iter [py " "; py ""; py "  "]) = ([[py ""]], Returned).
Proof.
  split; [reflexivity|].
  apply (split_into_list_blank_input [py " "; py ""; py "  "]). reflexivity.
Defined.

(** ** Streaming: what has been yielded when a fragment is asked for *)

Section BodyPrefix.
Context {input : Type}.
Variable step : frame * input -> option (option event * (frame * input)).
Variable view : input -> iterator.

Hypothesis step_while : forall buffer i,
  step (WhileTest buffer, i)
  = if contains comma buffer then
      match index comma buffer with
      | Some comma_index => Some (None, (AtYield buffer comma_index, i))
      | None => Some (None, (Finished (Raised ValueError), i))
      end
    else Some (None, (ForNext buffer, i)).

Hypothesis step_yield : forall buffer comma_index i,
  step (AtYield buffer comma_index, i)
  = Some (Some (Yield [strip (slice_to comma_index buffer)]),
          (WhileTest (slice_from (comma_index + 1) buffer), i)).

Hypothesis step_for : forall buffer i,
  exists t i',
    reaches step (ForNext buffer, i)
      (t ++ [Fetch (fst (next (view i)))])
      (after_fetch buffer (fst (next (view i))), i') /\
    yields t = [] /\ fetches t = [] /\
    view i' = snd (next (view i)).

(** Having fetched the fragments [f1] and no more, the body stands at its
    [for] statement again, with everything the loop yields over [f1]
    already yielded. *)
Lemma body_prefix f1 : forall f2 closing buffer i,
  view i = Iterator (f1 ++ f2) closing ->
  exists t i' buffer',
    for_loop buffer f1 None = (yields t, Normal buffer') /\
    fetches t = List.map Item f1 /\
    view i' = Iterator f2 closing /\
    reaches step (ForNext buffer, i) t (ForNext buffer', i').
Proof.
  induction f1 as [|chunk rest IH]; intros f2 closing b i Hv.
  - exists [], i, b. repeat split; [assumption|]. now exists 0.
  - destruct (step_for b i) as (t & i1 & Hr & Hy & Hf & Hv1).
    rewrite Hv in Hr, Hv1. unfold next in Hr, Hv1. simpl in Hr, Hv1.
    destruct (body_while step step_while step_yield (b ++ chunk) i1)
      as (out & b' & E & Hb' & Hw).
    destruct (IH f2 closing b' i1 Hv1) as (t' & i' & b'' & El & Hf' & Hv' & Hr').
    exists ((t ++ [Fetch (Item chunk)]) ++ List.map Yield out ++ t'), i', b''.
    simpl. rewrite E, El.
    rewrite !yields_app, !fetches_app, Hy, Hf, Hf'.
    rewrite yields_map_Yield, fetches_map_Yield. simpl.
    repeat split; [assumption|].
    eapply reaches_trans; [exact Hr|].
    eapply reaches_trans; [exact Hw|exact Hr'].
Qed.

End BodyPrefix.

Section Streaming.


Lemma for_loop_segments f1 t buffer :
  for_loop [] f1 None = (yields t, Normal buffer) ->
  exists segs,
    yields t = List.map (fun s => [strip s]) segs /\
    whole f1 = join [comma] (segs ++ [buffer]) /\
    Forall (fun s => contains comma s = false) (segs ++ [buffer]) /\
    length segs = count comma (whole f1).
Proof.
  intros E. rewrite (for_loop_whole f1 [] eq_refl) in E. simpl in E.
  destruct (while_loop_segments (whole f1)) as (segs & b & E' & Hj & Hall & Hn).
  rewrite E in E'. injection E' as Hy <-. now exists segs.
Qed.

End Streaming.

(** X4. Items are yielded as soon as their comma is in: when the generator
    has fetched the fragments [f1] and stands before its next fetch,
    whatever fragments or failure follow, it has yielded the stripped
    segment before every comma of [f1], in order, and its buffer is the text
    after the last of these commas.  The same holds for
    [asplit_into_list]. *)
Theorem split_into_list_streams :
  (forall (f1 f2 : list pystr) (closing : option exn),
     exists t segs buffer,
       reaches Sync.step (Entry, Iterator (f1 ++ f2) closing) t
         (ForNext buffer, Iterator f2 closing) /\
       fetches t = List.map Item f1 /\
       yields t = List.map (fun s => [strip s]) segs /\
       whole f1 = join [comma] (segs ++ [buffer]) /\
       Forall (fun s => contains comma s = false) (segs ++ [buffer]) /\
       length segs = count comma (whole f1)) /\
  (forall (f1 f2 : list (nat * pystr)) (delay : nat) (closing : option exn),
     exists t segs buffer i',
       reaches Async.step (Entry, AIterator (f1 ++ f2) delay closing) t
         (ForNext buffer, i') /\
       sync_of i' = Iterator (List.map snd f2) closing /\
       fetches t = List.map Item (List.map snd f1) /\
       yields t = List.map (fun s => [strip s]) segs /\
       whole (List.map snd f1) = join [comma] (segs ++ [buffer]) /\
       Forall (fun s => contains comma s = false) (segs ++ [buffer]) /\
       length segs = count comma (whole (List.map snd f1))).
Proof.
  split.
  - intros f1 f2 closing.
    destruct (body_prefix Sync.step (fun i => i)
                ltac:(reflexivity) ltac:(reflexivity) sync_step_for
                f1 f2 closing [] (Iterator (f1 ++ f2) closing) eq_refl)
      as (t & i' & b & El & Hf & Hv & Hr).
    simpl in Hv. subst i'.
    destruct (for_loop_segments _ _ _ El) as (segs & Hy & Hj & Hall & Hn).
    exists t, segs, b. repeat split; try assumption.
    change t with ([] ++ t).
    eapply reaches_trans; [apply reaches_silent; reflexivity|exact Hr].
  - intros f1 f2 delay closing.
    destruct (body_prefix Async.step sync_of
                ltac:(reflexivity) ltac:(reflexivity) async_step_for
                (List.map snd f1) (List.map snd f2) closing []
                (AIterator (f1 ++ f2) delay closing))
      as (t & i' & b & El & Hf & Hv & Hr).
    { unfold sync_of. simpl. now rewrite map_app. }
    destruct (for_loop_segments _ _ _ El) as (segs & Hy & Hj & Hall & Hn).
    exists t, segs, b, i'. repeat split; try assumption.
    change t with ([] ++ t).
    eapply reaches_trans; [apply reaches_silent; reflexivity|exact Hr].
Qed.


(** ** Suspensions of the asynchronous generator *)

Section Suspensions.

Lemma contains_index_some c s :
  contains c s = true -> exists i, index c s = Some i.
Proof.
  intros H. destruct (first_comma _ _ H) as (seg & rest & -> & Hseg).
  exists (length seg). now apply index_first.
Qed.

(** A step of the asynchronous body is a suspension that leaves the frame
    and the fragments as they are, or the step of the synchronous body. *)
Lemma async_step_sync fr (i : aiterator) :
  match Async.step (fr, i) with
  | None => Sync.step (fr, sync_of i) = None
  | Some (Some Suspend, (fr', i')) =>
      fr' = fr /\ sync_of i' = sync_of i /\ S (delays i') = delays i
  | Some (ev, (fr', i')) =>
      Sync.step (fr, sync_of i) = Some (ev, (fr', sync_of i')) /\
      delays i' = delays i
  end.
Proof.
  destruct fr as [|b|b|b k|b|c]; simpl; try (split; reflexivity); try reflexivity.
  - destruct i as [[|[[|d] chunk] rest] [|d'] [e|]]; simpl;
      repeat split; reflexivity.
  - destruct (contains comma b); [|split; reflexivity].
    destruct (index comma b); split; reflexivity.
Qed.

Lemma async_exec_sync n : forall fr (i : aiterator) ta fr' i',
  exec Async.step n (fr, i) = (ta, (fr', i')) ->
  reaches Sync.step (fr, sync_of i) (erase_suspend ta) (fr', sync_of i') /\
  count_suspend ta + delays i' = delays i.
Proof.
  induction n as [|n IH]; intros fr i ta fr' i'.
  - intros H. inversion H; subst. split; [now exists 0|reflexivity].
  - pose proof (async_step_sync fr i) as Hs.
    change (exec Async.step (S n) (fr, i))
      with (match Async.step (fr, i) with
            | None => ([], (fr, i))
            | Some (ev, s') =>
                let (t, s'') := exec Async.step n s' in
                (match ev with Some e => e :: t | None => t end, s'')
            end).
    destruct (Async.step (fr, i)) as [[ev [fr1 i1]]|] eqn:E.
    + destruct (exec Async.step n (fr1, i1)) as [t1 [fr2 i2]] eqn:E1.
      intros H. inversion H; subst. clear H.
      destruct (IH _ _ _ _ _ E1) as [Hr Hc].
      destruct ev as [[r|v|]|].
      * destruct Hs as [Hs Hd]. split; [|simpl; lia].
        change (erase_suspend (Fetch r :: t1)) with ([Fetch r] ++ erase_suspend t1).
        eapply reaches_trans; [apply reaches_event; exact Hs|exact Hr].
      * destruct Hs as [Hs Hd]. split; [|simpl; lia].
        change (erase_suspend (Yield v :: t1)) with ([Yield v] ++ erase_suspend t1).
        eapply reaches_trans; [apply reaches_event; exact Hs|exact Hr].
      * destruct Hs as (-> & Hv & Hd). rewrite Hv in Hr.
        split; [exact Hr|simpl; lia].
      * destruct Hs as [Hs Hd]. split; [|simpl; lia].
        change (erase_suspend t1) with ([] ++ erase_suspend t1).
        eapply reaches_trans; [apply reaches_silent; exact Hs|exact Hr].
    + intros H. inversion H; subst. split; [now exists 0|reflexivity].
Qed.

(** Past its [for] loop the body has nothing left to wait for. *)
Lemma async_waited_out input t fr i' :
  reaches Async.step (Entry, input) t (fr, i') ->
  match fr with
  | AtLastYield _ | Finished _ => delays i' = 0
  | _ => True
  end.
Proof.
  intros Hr.
  pose (P := fun s : Async.state =>
               match fst s with
               | AtLastYield _ | Finished _ => delays (snd s) = 0
               | _ => True
               end).
  apply (reaches_invariant Async.step P) with (s' := (fr, i')) in Hr;
    [exact Hr| |exact I].
  intros [fr0 i0] ev [fr1 i1] Hp Hstep. unfold P in *. simpl in *.
  destruct fr0 as [|b|b|b k|b|c]; simpl in Hstep.
  - now injection Hstep as _ <- _.
  - destruct i0 as [[|[[|d] chunk] rest] [|d'] [e|]]; simpl in Hstep;
      injection Hstep as _ <- <-; reflexivity.
  - destruct (contains comma b) eqn:Hc.
    + destruct (contains_index_some _ _ Hc) as (k & Hk). rewrite Hk in Hstep.
      now injection Hstep as _ <- _.
    + now injection Hstep as _ <- _.
  - now injection Hstep as _ <- _.
  - injection Hstep as _ <- <-. exact Hp.
  - discriminate.
Qed.

End Suspensions.

(** X6. [asplit_into_list] is suspended only while it waits for its input:
    its run, with the suspensions left out, is the run of [split_into_list]
    over the same fragments, event for event, and it is suspended exactly as
    often as the input keeps it waiting. *)
Theorem asplit_into_list_suspends_only_to_wait (input : aiterator) :
  exists ta c ia,
    runs_to Async.step (Entry, input) ta (Finished c, ia) /\
    runs_to Sync.step (Entry, sync_of input) (erase_suspend ta)
      (Finished c, sync_of ia) /\
    count_suspend ta = delays input.
Proof.
  destruct (async_run_loops input) as (t & i' & b & _ & _ & [[n Hn] Hh] & _).
  eexists _, _, i'. split; [split; [exists n; exact Hn|exact Hh]|].
  destruct (async_exec_sync n _ _ _ _ _ Hn) as [Hr Hc].
  split; [split; [exact Hr|reflexivity]|].
  pose proof (async_waited_out input _ _ _ (ex_intro _ n Hn)) as H0.
  simpl in H0. lia.
Qed.

(** ** The coerced function *)

(** X7. The function coerced into a runnable returns the start of the
    message's content, five characters of it or all of it when it is
    shorter; a short or empty content is no error. *)
Theorem coerced_function_prefix (x : AIMessage) :
  length (coerced_function x) = Nat.min 5 (length (content x)) /\
  content x = coerced_function x ++ slice_from 5 (content x) /\
  (coerced_function x = content x <-> length (content x) <= 5).
Proof.
  unfold coerced_function, slice_to, slice_from. repeat split.
  - apply length_firstn.
  - symmetry. apply firstn_skipn.
  - intros H. apply (f_equal (@length char)) in H.
    rewrite length_firstn in H. now apply Nat.min_r_iff.
  - intros H. now apply firstn_all2.
Qed.

(** ** [parse_or_fix] *)

Section ParseOrFixFacts.
Variable json : Type.
Variable json_str : pystr -> json.
Variable loads : pystr -> json + exn.
Variables config world : Type.
Variable invoke : config -> pystr -> exn -> world -> (pystr + exn) * world.
Variable cfg : config.

(** The loop over [n] attempts, with the chain recorded and not. *)
Lemma attempts_facts n : forall text log w,
  exists r calls w',
    attempts json_str loads (invoke_recording invoke) n text cfg (log, w)
    = (r, (log ++ calls, w')) /\
    attempts json_str loads invoke n text cfg w = (r, w') /\
    length calls <= n /\
    Forall (fun ct => fst ct = cfg /\ exists e, loads (snd ct) = inr e) calls /\
    (forall c t rest, calls = (c, t) :: rest -> t = text) /\
    (calls = [] -> 0 < n ->
     exists v, loads text = inl v /\ r = inl v /\ w' = w) /\
    ((exists v, loads text = inl v) -> calls = []) /\
    (forall v, r = inl v ->
     (length calls < n /\
      exists t, loads t = inl v /\
        ((calls = [] /\ t = text) \/
         exists rest tl e w0 w1,
           calls = rest ++ [(cfg, tl)] /\ loads tl = inr e /\
           invoke cfg tl e w0 = (inl t, w1))) \/
     (length calls = n /\ v = json_str (py "Failed to parse"))) /\
    (forall e', r = inr e' ->
     exists rest t e w0,
       calls = rest ++ [(cfg, t)] /\ loads t = inr e /\
       invoke cfg t e w0 = (inr e', w')).
Proof.
  induction n as [|n IH]; intros text log w.
  - exists (inl (json_str (py "Failed to parse"))), [], w. simpl.
    rewrite app_nil_r.
    split; [reflexivity|]. split; [reflexivity|]. split; [lia|].
    split; [constructor|]. split; [discriminate|].
    split; [intros _ H; inversion H|]. split; [reflexivity|].
    split; [intros v [= <-]; right; split; reflexivity|discriminate].
  - simpl. destruct (loads text) as [v|e] eqn:El.
    + exists (inl v), [], w. rewrite app_nil_r.
      split; [reflexivity|]. split; [reflexivity|]. split; [simpl; lia|].
      split; [constructor|]. split; [discriminate|].
      split; [intros _ _; now exists v|]. split; [reflexivity|].
      split; [|discriminate].
      intros v' [= <-]. left. split; [simpl; lia|].
      exists text. split; [exact El|]. left. split; reflexivity.
    + unfold invoke_recording at 1. simpl.
      destruct (invoke cfg text e w) as [[text'|e'] w1] eqn:Ei.
      * destruct (IH text' (log ++ [(cfg, text)]) w1)
          as (r & calls & w' & E1 & E2 & Hlen & Hall & Hfirst & _ & _
              & Hval & Hexn).
        exists r, ((cfg, text) :: calls), w'.
        rewrite <- app_assoc in E1. simpl in E1.
        split; [exact E1|]. split; [exact E2|].
        split; [simpl; lia|].
        split; [constructor; [split; [reflexivity|now exists e]|exact Hall]|].
        split; [now intros c t rest [= _ <- _]|].
        split; [discriminate|].
        split; [intros (v & Hv); congruence|].
        split.
        -- intros v Hv.
           destruct (Hval v Hv) as [(Hlt & t & Ht & Hlast)|(Hn & ->)].
           ++ left. split; [simpl; lia|]. exists t. split; [exact Ht|]. right.
              destruct Hlast as [(-> & ->)|(rest & tl & e0 & w0 & w2 & -> & Hl & Hi)].
              ** now exists [], text, e, w, w1.
              ** now exists ((cfg, text) :: rest), tl, e0, w0, w2.
           ++ right. split; [simpl; lia|reflexivity].
        -- intros e' He'.
           destruct (Hexn e' He') as (rest & t & e0 & w0 & -> & Ht & Hi).
           now exists ((cfg, text) :: rest), t, e0, w0.
      * exists (inr e'), [(cfg, text)], w1.
        split; [reflexivity|]. split; [reflexivity|].
        split; [simpl; lia|].
        split; [constructor; [split; [reflexivity|now exists e]|constructor]|].
        split; [now intros c t rest [= _ <- _]|].
        split; [discriminate|].
        split; [intros (v & Hv); congruence|].
        split; [discriminate|].
        intros e0 [= <-]. now exists [], text, e, w.
Qed.

End ParseOrFixFacts.

(** X8. [parse_or_fix] invokes the fixing chain at most three times, each
    time with the configuration it was given and on a text [json.loads]
    rejected, the input text first; it invokes it not at all exactly when
    the input text parses, and then it returns the parsed value and leaves
    the world as it is.  Recording the invocations changes nothing. *)
Theorem parse_or_fix_invocations (json config world : Type)
    (json_str : pystr -> json) (loads : pystr -> json + exn)
    (invoke : config -> pystr -> exn -> world -> (pystr + exn) * world)
    (text : pystr) (cfg : config) (w : world) :
  exists r calls w',
    parse_or_fix json_str loads (invoke_recording invoke) text cfg ([], w)
    = (r, (calls, w')) /\
    parse_or_fix json_str loads invoke text cfg w = (r, w') /\
    length calls <= 3 /\
    Forall (fun ct => fst ct = cfg /\ exists e, loads (snd ct) = inr e) calls /\
    (forall c t rest, calls = (c, t) :: rest -> t = text) /\
    (calls = [] <-> exists v, loads text = inl v) /\
    (forall v, loads text = inl v -> r = inl v /\ w' = w).
Proof.
  destruct (attempts_facts json json_str loads config world invoke cfg 3 text [] w)
    as (r & calls & w' & E1 & E2 & Hlen & Hall & Hfirst & Hnone & Hsome & _).
  exists r, calls, w'. unfold parse_or_fix.
  split; [exact E1|]. split; [exact E2|]. split; [exact Hlen|].
  split; [exact Hall|]. split; [exact Hfirst|]. split.
  - split; [|exact Hsome].
    intros Hc. destruct (Hnone Hc ltac:(lia)) as (v & Hv & _). now exists v.
  - intros v Hv.
    destruct (Hnone (Hsome (ex_intro _ v Hv)) ltac:(lia)) as (v' & Hv' & -> & ->).
    split; [congruence|reflexivity].
Qed.

(** X9. What [parse_or_fix] ends with: an exception only when the last
    invocation of the chain raised it (what [json.loads] raises is never
    passed on); otherwise an object that is, after at most two invocations,
    what [json.loads] made of the input text or of the chain's latest
    answer, or, after exactly three, the [str] ["Failed to parse"]. *)
Theorem parse_or_fix_outcome (json config world : Type)
    (json_str : pystr -> json) (loads : pystr -> json + exn)
    (invoke : config -> pystr -> exn -> world -> (pystr + exn) * world)
    (text : pystr) (cfg : config) (w : world)
    (r : json + exn) (calls : list (config * pystr)) (w' : world) :
  parse_or_fix json_str loads (invoke_recording invoke) text cfg ([], w)
  = (r, (calls, w')) ->
  match r with
  | inl v =>
      (length calls <= 2 /\
       exists t, loads t = inl v /\
         ((calls = [] /\ t = text) \/
          exists rest tl e w0 w1,
            calls = rest ++ [(cfg, tl)] /\ loads tl = inr e /\
            invoke cfg tl e w0 = (inl t, w1))) \/
      (length calls = 3 /\ v = json_str (py "Failed to parse"))
  | inr e' =>
      exists rest t e w0,
        calls = rest ++ [(cfg, t)] /\ loads t = inr e /\
        invoke cfg t e w0 = (inr e', w')
  end.
Proof.
  intros H.
  destruct (attempts_facts json json_str loads config world invoke cfg 3 text [] w)
    as (r1 & calls1 & w1 & E1 & _ & _ & _ & _ & _ & _ & Hval & Hexn).
  unfold parse_or_fix in H. rewrite E1 in H. simpl in H.
  injection H as <- <- <-.
  destruct r1 as [v|e'].
  - destruct (Hval v eq_refl) as [(Hlt & Ht)|Hn].
    + left. split; [lia|exact Ht].
    + right. exact Hn.
  - exact (Hexn e' eq_refl).
Qed.

Lemma parse_or_fix_outcome_witness :
  parse_or_fix JString sample_loads (invoke_recording sample_invoke)
    (py "{foo") tt ([], 0)
  = (inl (JString (py "Failed to parse")),
     ([(tt, py "{foo"); (tt, py "{"); (tt, py "{")], 3)) /\
  ((length [(tt, py "{foo"); (tt, py "{"); (tt, py "{")] <= 2 /\
    exists t, sample_loads t = inl (JString (py "Failed to parse")) /\
      (([(tt, py "{foo"); (tt, py "{"); (tt, py "{")] = [] /\ t = py "{foo") \/
       exists rest tl e w0 w1,
         [(tt, py "{foo"); (tt, py "{"); (tt, py "{")] = rest ++ [(tt, tl)] /\
         sample_loads tl = inr e /\
         sample_invoke tt tl e w0 = (inl t, w1))) \/
   (length [(tt, py "{foo"); (tt, py "{"); (tt, py "{")] = 3 /\
    JString (py "Failed to parse") = JString (py "Failed to parse"))).
Proof.
  split; [reflexivity|].
  exact (parse_or_fix_outcome sample_json unit nat JString sample_loads
           sample_invoke (py "{foo") tt 0
           (inl (JString (py "Failed to parse")))
           [(tt, py "{foo"); (tt, py "{"); (tt, py "{")] 3 eq_refl).
Defined.

(** X10. The third answer of the fixing chain is never parsed: when the
    input text and the first two answers are rejected by [json.loads] and
    the chain answers a third time, [parse_or_fix] returns
    ["Failed to parse"], whatever that third answer is. *)
Theorem parse_or_fix_discards_third_fix (json config world : Type)
    (json_str : pystr -> json) (loads : pystr -> json + exn)
    (invoke : config -> pystr -> exn -> world -> (pystr + exn) * world)
    (cfg : config) (t0 t1 t2 t3 : pystr) (e0 e1 e2 : exn) (w0 w1 w2 w3 : world) :
  loads t0 = inr e0 -> invoke cfg t0 e0 w0 = (inl t1, w1) ->
  loads t1 = inr e1 -> invoke cfg t1 e1 w1 = (inl t2, w2) ->
  loads t2 = inr e2 -> invoke cfg t2 e2 w2 = (inl t3, w3) ->
  parse_or_fix json_str loads invoke t0 cfg w0
  = (inl (json_str (py "Failed to parse")), w3).
Proof.
  intros L0 I0 L1 I1 L2 I2. unfold parse_or_fix. simpl.
  now rewrite L0, I0, L1, I1, L2, I2.
Qed.

Lemma parse_or_fix_discards_third_fix_witness :
  sample_loads (py "{}") = inl (JObject []) /\
  parse_or_fix JString sample_loads sample_invoke (py "{foo") tt 0
  = (inl (JString (py "Failed to parse")), 3).
Proof.
  split; [reflexivity|].
  apply (parse_or_fix_discards_third_fix sample_json unit nat JString
           sample_loads sample_invoke
           tt (py "{foo") (py "{") (py "{") (py "{}")
           (Exn "JSONDecodeError") (Exn "JSONDecodeError") (Exn "JSONDecodeError")
           0 1 2 3); reflexivity.
Defined.
